(** * RingBuffer<T, size, alloc_t>: a shallow embedding of
      blatt07/include/ringbuffer/ringbuffer.h

    The class template is a fixed-capacity circular array of owned [T*]
    with [head]/[count] bookkeeping.  The member functions are embedded as
    functions on an explicit state record that also return the trace of
    allocator / [delete] calls they perform.

    Data model (LP64): [size_t] is an unsigned 64-bit integer, [int] a
    signed 32-bit integer, a [T*] is an address.  All of them are carried
    by [Z], with the wrap-around of every arithmetic step written out. *)

From Stdlib Require Import ZArith Lia List.
From stdpp Require Import base list.
Import ListNotations.

Local Open Scope Z_scope.

(** ** Machine integers *)

Module Machine.

Definition SIZE_MAX : Z := 2 ^ 64 - 1.
Definition PTRDIFF_MAX : Z := 2 ^ 63 - 1.
Definition INT_MAX : Z := 2 ^ 31 - 1.
Definition INT_MIN : Z := - 2 ^ 31.

(** [sizeof(T* )] *)
Definition sizeof_ptr : Z := 8.

(** Result of an arithmetic expression of type [size_t]. *)
Definition to_size_t (z : Z) : Z := z mod 2 ^ 64.

(** Conversion of an integer value to [int] (modular, as GCC/Clang do
    and as C++20 prescribes). *)
Definition to_int (z : Z) : Z := (z + 2 ^ 31) mod 2 ^ 32 - 2 ^ 31.

End Machine.
Import Machine.

(** ** Pointers, outcomes and observable events *)

(** A [T*] is an address; [nullptr] is address 0. *)
Abbreviation ptr := Z.
Definition nullptr : ptr := 0.

Inductive fault : Type :=
| UndefinedBehaviour   (* out-of-bounds access, signed overflow, [% 0] *)
| BadArrayNewLength    (* [new T*[size]] refuses the requested length *)
| OutOfFuel.           (* the model's loop budget ran out *)

Inductive outcome (A : Type) : Type :=
| Ok (a : A)
| Fault (f : fault).
Arguments Ok {A} a.
Arguments Fault {A} f.

(** The calls a member function makes on its collaborators:
    [m_allocator.deallocate(p, n)] and [delete(elems)]. *)
Inductive event : Type :=
| EvDeallocate (p : ptr) (n : Z)
| EvDeleteElems.

(** ** The object state *)

Record RingBuffer : Type := mkRingBuffer {
  count : Z;          (* size_t count *)
  head : Z;           (* size_t head  *)
  elems : list ptr    (* T** elems, the [size] slots of the backing array *)
}.

(** [elems[i]] as an rvalue and [elems[i] = p]; an index outside the array
    is undefined behaviour, rendered as [None]. *)
Definition load (a : list ptr) (i : Z) : option ptr :=
  if 0 <=? i then a !! Z.to_nat i else None.

Definition store (a : list ptr) (i : Z) (p : ptr) : option (list ptr) :=
  if (0 <=? i) && (i <? Z.of_nat (length a))
  then Some (<[Z.to_nat i := p]> a)
  else None.

(** ** Member functions

    The template parameter [size] is the first argument of every
    function. *)

(** [RingBuffer() : count(0), head(0) { elems = new T*[size]; }]

    The fresh array holds indeterminate pointers, given by [indet].  The
    array new-expression throws when the array would exceed the largest
    object the implementation supports ([PTRDIFF_MAX] bytes). *)
Definition RingBuffer_ctor (size : Z) (indet : nat -> ptr) : outcome RingBuffer :=
  if size * sizeof_ptr >? PTRDIFF_MAX then Fault BadArrayNewLength
  else Ok {| count := 0; head := 0;
             elems := map indet (seq 0 (Z.to_nat size)) |}.

(** [T* readBuffer()] *)
Definition readBuffer (size : Z) (rb : RingBuffer)
  : outcome (ptr * RingBuffer * list event) :=
  if count rb =? 0 then Ok (nullptr, rb, [])
  else
    match load (elems rb) (head rb) with
    | None => Fault UndefinedBehaviour
    | Some element =>
        let count' := to_size_t (count rb - 1) in
        let head' :=
          if to_size_t (head rb + 1) =? size then 0
          else to_size_t (head rb + 1) in
        Ok (element, {| count := count'; head := head'; elems := elems rb |}, [])
    end.

(** [void writeBuffer(T *data)] *)
Definition writeBuffer (size : Z) (rb : RingBuffer) (data : ptr)
  : outcome (unit * RingBuffer * list event) :=
  if count rb =? size then
    match load (elems rb) (head rb) with
    | None => Fault UndefinedBehaviour
    | Some old =>
        match store (elems rb) (head rb) data with
        | None => Fault UndefinedBehaviour
        | Some elems' =>
            Ok (tt, {| count := count rb; head := head rb; elems := elems' |},
                [EvDeallocate old 1])
        end
    end
  else
    if size =? 0 then Fault UndefinedBehaviour
    else
      match store (elems rb) (to_size_t (head rb + count rb) mod size) data with
      | None => Fault UndefinedBehaviour
      | Some elems' =>
          Ok (tt, {| count := to_size_t (count rb + 1); head := head rb;
                     elems := elems' |}, [])
      end.

(** The loop of the destructor,
    [for (int i = head; count > 0; count--) { ... }], from the state in
    which the loop variable holds [i].  In [i == size - 1] the [int] is
    converted to [size_t]; [i++] overflows at [INT_MAX]. *)
Fixpoint destroy_loop (fuel : nat) (size : Z) (i : Z) (rb : RingBuffer)
    (tr : list event) : outcome (RingBuffer * list event) :=
  if count rb >? 0 then
    match fuel with
    | O => Fault OutOfFuel
    | S fuel' =>
        match load (elems rb) i with
        | None => Fault UndefinedBehaviour
        | Some p =>
            let tr' := tr ++ [EvDeallocate p 1] in
            let next :=
              if to_size_t i =? to_size_t (size - 1) then Some 0
              else if i + 1 >? INT_MAX then None
              else Some (i + 1) in
            match next with
            | None => Fault UndefinedBehaviour
            | Some i' =>
                destroy_loop fuel' size i'
                  {| count := to_size_t (count rb - 1); head := head rb;
                     elems := elems rb |} tr'
            end
        end
    end
  else Ok (rb, tr).

(** [~RingBuffer()]: the trace of releases it performs.  The loop runs at
    most [count] times, which is the budget it is given. *)
Definition RingBuffer_dtor (size : Z) (rb : RingBuffer) : outcome (list event) :=
  let tr0 := if count rb =? 0 then [EvDeleteElems] else [] in
  if count rb >? 0 then
    match destroy_loop (Z.to_nat (count rb)) size (to_int (head rb)) rb tr0 with
    | Fault f => Fault f
    | Ok (_, tr) => Ok (tr ++ [EvDeleteElems])
    end
  else Ok tr0.

(** ** Sequences of calls *)

Inductive call : Type :=
| CallRead
| CallWrite (data : ptr).

(** Runs the calls in order; collects the pointers returned by the reads
    and the events of all calls. *)
Fixpoint run (size : Z) (calls : list call) (rb : RingBuffer)
  : outcome (list ptr * RingBuffer * list event) :=
  match calls with
  | [] => Ok ([], rb, [])
  | CallRead :: rest =>
      match readBuffer size rb with
      | Fault f => Fault f
      | Ok (p, rb1, tr1) =>
          match run size rest rb1 with
          | Fault f => Fault f
          | Ok (ps, rb2, tr2) => Ok (p :: ps, rb2, tr1 ++ tr2)
          end
      end
  | CallWrite data :: rest =>
      match writeBuffer size rb data with
      | Fault f => Fault f
      | Ok (_, rb1, tr1) =>
          match run size rest rb1 with
          | Fault f => Fault f
          | Ok (ps, rb2, tr2) => Ok (ps, rb2, tr1 ++ tr2)
          end
      end
  end.

(** ** Well-formed and reachable states *)

(** The class invariant: the capacity is positive and its array exists,
    the bookkeeping is in range, and [elems] has [size] slots. *)
Record wf (size : Z) (rb : RingBuffer) : Prop := mk_wf {
  wf_capacity : 0 < size /\ size * sizeof_ptr <= PTRDIFF_MAX;
  wf_count : 0 <= count rb <= size;
  wf_head : 0 <= head rb < size;
  wf_elems : Z.of_nat (length (elems rb)) = size
}.

(** The states an object can be in between two calls. *)
Inductive reachable (size : Z) : RingBuffer -> Prop :=
| reach_ctor indet rb :
    RingBuffer_ctor size indet = Ok rb -> reachable size rb
| reach_read rb p rb' tr :
    reachable size rb -> readBuffer size rb = Ok (p, rb', tr) ->
    reachable size rb'
| reach_write rb data u rb' tr :
    reachable size rb -> writeBuffer size rb data = Ok (u, rb', tr) ->
    reachable size rb'.

(** The logical window: the pointers at slots [(head + i) mod size],
    [0 <= i < count], oldest first. *)
Definition slot (size : Z) (hd : Z) (i : Z) : Z := (hd + i) mod size.

Definition window (size : Z) (rb : RingBuffer) : list ptr :=
  map (fun i => default nullptr (load (elems rb) (slot size (head rb) (Z.of_nat i))))
      (seq 0 (Z.to_nat (count rb))).

(** The releases of a walk of [n] slots that starts at slot [i]. *)
Definition releases (size : Z) (a : list ptr) (i : Z) (n : nat) : list event :=
  map (fun k => EvDeallocate (default nullptr (load a (slot size i (Z.of_nat k)))) 1)
      (seq 0 n).

(** ** Bookkeeping on calls and traces *)

(** The pointers handed to [writeBuffer] by a sequence of calls, and the
    pointers passed to [deallocate] in a trace. *)
Definition written (calls : list call) : list ptr :=
  flat_map (fun c => match c with CallWrite d => [d] | CallRead => [] end) calls.

Definition released (tr : list event) : list ptr :=
  flat_map (fun e => match e with EvDeallocate p _ => [p] | EvDeleteElems => [] end) tr.

Definition nonnull (p : ptr) : Prop := p <> nullptr.

#[global] Instance nonnull_dec (p : ptr) : Decision (nonnull p).
Proof. unfold nonnull. apply _. Defined.

(** ** The buffer seen as a list

    What the two calls do to the window, stated on lists: a read takes
    the front pointer; a write on a window of [size] pointers releases the
    front pointer and puts the new one in its place; any other write goes
    to the back. *)
Definition queue_read (q : list ptr) : ptr * list ptr :=
  match q with
  | [] => (nullptr, [])
  | p :: q' => (p, q')
  end.

Definition queue_write (size : Z) (q : list ptr) (data : ptr)
  : list ptr * list event :=
  match q with
  | old :: q' =>
      if Z.of_nat (length q) =? size then (data :: q', [EvDeallocate old 1])
      else (q ++ [data], [])
  | [] => ([data], [])
  end.

Fixpoint queue_run (size : Z) (calls : list call) (q : list ptr)
  : list ptr * list ptr * list event :=
  match calls with
  | [] => ([], q, [])
  | CallRead :: rest =>
      let r := queue_run size rest (queue_read q).2 in
      ((queue_read q).1 :: r.1.1, r.1.2, r.2)
  | CallWrite data :: rest =>
      let r := queue_run size rest (queue_write size q data).1 in
      (r.1.1, r.1.2, (queue_write size q data).2 ++ r.2)
  end.

(** ** Concrete buffers of capacity 3

    [fresh3] is a buffer as the constructor leaves it, [part3] holds the
    pointers 10, 20 in slots 2, 0, and [full3] holds 10, 20, 30 in slots
    1, 2, 0. *)
Definition fresh3 : RingBuffer :=
  {| count := 0; head := 0; elems := [7; 8; 9] |}.

Definition part3 : RingBuffer :=
  {| count := 2; head := 2; elems := [20; 8; 10] |}.

Definition full3 : RingBuffer :=
  {| count := 3; head := 1; elems := [30; 10; 20] |}.

(** ** Sanity checks on concrete runs (N = 3) *)

Example ctor3 : RingBuffer_ctor 3 (fun i => Z.of_nat i + 7) = Ok fresh3.
Proof. reflexivity. Qed.

Example run3_fifo :
  run 3 [CallWrite 11; CallWrite 12; CallRead; CallWrite 13; CallRead;
         CallRead; CallRead] fresh3
  = Ok ([11; 12; 13; nullptr],
        {| count := 0; head := 0; elems := [11; 12; 13] |}, []).
Proof. reflexivity. Qed.

Example dtor3_wrapping :
  RingBuffer_dtor 3 {| count := 2; head := 2; elems := [11; 12; 13] |}
  = Ok [EvDeallocate 13 1; EvDeallocate 11 1; EvDeleteElems].
Proof. reflexivity. Qed.

(** ** Arithmetic and array helpers *)

Lemma to_size_t_small z : 0 <= z <= SIZE_MAX -> to_size_t z = z.
Proof. unfold to_size_t, SIZE_MAX. intros H. apply Z.mod_small. lia. Qed.

Lemma to_int_small z : INT_MIN <= z <= INT_MAX -> to_int z = z.
Proof.
  unfold to_int, INT_MIN, INT_MAX. intros H.
  rewrite Z.mod_small; lia.
Qed.

Lemma load_in_range (a : list ptr) i :
  0 <= i < Z.of_nat (length a) -> exists p, load a i = Some p.
Proof.
  intros H. unfold load.
  destruct (Z.leb_spec 0 i); [|lia].
  destruct (lookup_lt_is_Some_2 a (Z.to_nat i)) as [p Hp]; [lia|].
  eauto.
Qed.

Lemma store_in_range (a : list ptr) i p :
  0 <= i < Z.of_nat (length a) -> store a i p = Some (<[Z.to_nat i := p]> a).
Proof.
  intros H. unfold store.
  destruct (Z.leb_spec 0 i); [|lia].
  destruct (Z.ltb_spec i (Z.of_nat (length a))); [|lia].
  reflexivity.
Qed.

Lemma load_insert_eq (a : list ptr) i p :
  0 <= i < Z.of_nat (length a) -> load (<[Z.to_nat i := p]> a) i = Some p.
Proof.
  intros H. unfold load.
  destruct (Z.leb_spec 0 i); [|lia].
  apply list_lookup_insert_eq. lia.
Qed.

Lemma load_insert_ne (a : list ptr) i j p :
  0 <= i -> i <> j -> load (<[Z.to_nat i := p]> a) j = load a j.
Proof.
  intros Hi Hne. unfold load.
  destruct (Z.leb_spec 0 j); [|reflexivity].
  apply list_lookup_insert_ne. lia.
Qed.

Lemma capacity_fits size :
  0 < size /\ size * sizeof_ptr <= PTRDIFF_MAX -> 2 * size <= SIZE_MAX.
Proof. unfold sizeof_ptr, PTRDIFF_MAX, SIZE_MAX. lia. Qed.

(** Two offsets of the same lap land on different slots. *)
Lemma slot_inj size hd i j :
  0 < size -> 0 <= i < size -> 0 <= j < size ->
  slot size hd i = slot size hd j -> i = j.
Proof.
  unfold slot. intros Hs Hi Hj Heq.
  pose proof (Z.div_mod (hd + i) size ltac:(lia)) as Ei.
  pose proof (Z.div_mod (hd + j) size ltac:(lia)) as Ej.
  rewrite Heq in Ei.
  set (k := (hd + i) / size - (hd + j) / size).
  assert (Hk : i - j = size * k) by (unfold k; lia).
  assert (k = 0) by nia.
  lia.
Qed.

Lemma slot_range size hd i : 0 < size -> 0 <= slot size hd i < size.
Proof. intros Hs. unfold slot. apply Z.mod_pos_bound. lia. Qed.

Lemma slot_0 size hd : 0 <= hd < size -> slot size hd 0 = hd.
Proof. intros H. unfold slot. rewrite Z.add_0_r. apply Z.mod_small. lia. Qed.

Lemma slot_succ size hd i :
  slot size (slot size hd 1) i = slot size hd (i + 1).
Proof.
  unfold slot. rewrite Zplus_mod_idemp_l. f_equal. lia.
Qed.

(** ** What one call does on a well-formed state *)

Section OneCall.

Variable size : Z.
Variable rb : RingBuffer.
Hypothesis Hwf : wf size rb.

Lemma read_empty_step : count rb = 0 -> readBuffer size rb = Ok (nullptr, rb, []).
Proof. intros H. unfold readBuffer. rewrite H. reflexivity. Qed.

Lemma read_step :
  0 < count rb ->
  exists element,
    load (elems rb) (head rb) = Some element /\
    readBuffer size rb
    = Ok (element,
          {| count := count rb - 1; head := (head rb + 1) mod size;
             elems := elems rb |}, []).
Proof.
  intros Hc. destruct Hwf as [Hcap Hcnt Hhd Hlen].
  pose proof (capacity_fits size Hcap) as Hfit.
  destruct (load_in_range (elems rb) (head rb)) as [e He]; [lia|].
  exists e. split; [exact He|].
  unfold readBuffer. rewrite He.
  destruct (Z.eqb_spec (count rb) 0); [lia|].
  rewrite !to_size_t_small by lia.
  destruct (Z.eqb_spec (head rb + 1) size) as [E|E].
  - rewrite E, Z_mod_same_full. reflexivity.
  - rewrite Z.mod_small by lia. reflexivity.
Qed.

Lemma write_append_step data :
  count rb < size ->
  writeBuffer size rb data
  = Ok (tt,
        {| count := count rb + 1; head := head rb;
           elems := <[Z.to_nat (slot size (head rb) (count rb)) := data]> (elems rb) |},
        []).
Proof.
  intros Hc. destruct Hwf as [Hcap Hcnt Hhd Hlen].
  pose proof (capacity_fits size Hcap) as Hfit.
  unfold writeBuffer.
  destruct (Z.eqb_spec (count rb) size); [lia|].
  destruct (Z.eqb_spec size 0); [lia|].
  rewrite !to_size_t_small by lia.
  fold (slot size (head rb) (count rb)).
  rewrite store_in_range; [reflexivity|].
  rewrite Hlen. apply slot_range. lia.
Qed.

Lemma write_overwrite_step data :
  count rb = size ->
  exists old,
    load (elems rb) (head rb) = Some old /\
    writeBuffer size rb data
    = Ok (tt,
          {| count := count rb; head := head rb;
             elems := <[Z.to_nat (head rb) := data]> (elems rb) |},
          [EvDeallocate old 1]).
Proof.
  intros Hc. destruct Hwf as [Hcap Hcnt Hhd Hlen].
  destruct (load_in_range (elems rb) (head rb)) as [old Hold]; [lia|].
  exists old. split; [exact Hold|].
  unfold writeBuffer. rewrite Hold.
  destruct (Z.eqb_spec (count rb) size); [|lia].
  rewrite store_in_range by lia. reflexivity.
Qed.

End OneCall.

(** ** The class invariant is established and preserved *)

Lemma wf_ctor size indet rb :
  0 < size -> RingBuffer_ctor size indet = Ok rb -> wf size rb.
Proof.
  intros Hs. unfold RingBuffer_ctor.
  destruct (Z.gtb_spec (size * sizeof_ptr) PTRDIFF_MAX); [discriminate|].
  intros [= <-]. split; simpl; try lia.
  rewrite length_map, length_seq. lia.
Qed.

Lemma wf_read size rb p rb' tr :
  wf size rb -> readBuffer size rb = Ok (p, rb', tr) -> wf size rb'.
Proof.
  intros Hwf Hr.
  destruct (Z.eq_dec (count rb) 0) as [E|E].
  - rewrite read_empty_step in Hr by exact E. congruence.
  - pose proof Hwf as [Hcap Hcnt Hhd Hlen].
    destruct (read_step size rb Hwf) as (e & _ & Hr'); [lia|].
    rewrite Hr' in Hr. injection Hr as <- <- <-.
    split; simpl; try lia.
    apply Z.mod_pos_bound. lia.
Qed.

Lemma wf_write size rb data u rb' tr :
  wf size rb -> writeBuffer size rb data = Ok (u, rb', tr) -> wf size rb'.
Proof.
  intros Hwf Hw. pose proof Hwf as [Hcap Hcnt Hhd Hlen].
  destruct (Z.eq_dec (count rb) size) as [E|E].
  - destruct (write_overwrite_step size rb Hwf data E) as (old & _ & Hw').
    rewrite Hw' in Hw. injection Hw as <- <- <-.
    split; simpl; try lia. rewrite length_insert. lia.
  - rewrite write_append_step in Hw by (assumption || lia).
    injection Hw as <- <- <-.
    split; simpl; try lia. rewrite length_insert. lia.
Qed.

Lemma reachable_wf size rb : 0 < size -> reachable size rb -> wf size rb.
Proof.
  intros Hs Hr. induction Hr.
  - eapply wf_ctor; eassumption.
  - eapply wf_read; eassumption.
  - eapply wf_write; eassumption.
Qed.

(** ** The logical window under one call *)

Lemma window_length size rb :
  length (window size rb) = Z.to_nat (count rb).
Proof. unfold window. rewrite length_map, length_seq. reflexivity. Qed.

Lemma window_nil size rb : count rb = 0 -> window size rb = [].
Proof. intros H. unfold window. rewrite H. reflexivity. Qed.

Lemma window_read size rb element :
  wf size rb -> 0 < count rb ->
  load (elems rb) (head rb) = Some element ->
  window size rb
  = element :: window size {| count := count rb - 1;
                              head := (head rb + 1) mod size;
                              elems := elems rb |}.
Proof.
  intros [Hcap Hcnt Hhd Hlen] Hc He. unfold window; simpl.
  replace (Z.to_nat (count rb)) with (S (Z.to_nat (count rb - 1))) by lia.
  rewrite <- cons_seq, <- seq_shift, map_cons, map_map.
  f_equal.
  - change (Z.of_nat 0) with 0. rewrite slot_0 by lia. rewrite He. reflexivity.
  - apply map_ext. intros i. fold (slot size (head rb) 1).
    rewrite slot_succ. do 3 f_equal. lia.
Qed.

Lemma window_append size rb data :
  wf size rb -> count rb < size ->
  window size {| count := count rb + 1; head := head rb;
                 elems := <[Z.to_nat (slot size (head rb) (count rb)) := data]> (elems rb) |}
  = window size rb ++ [data].
Proof.
  intros [Hcap Hcnt Hhd Hlen] Hc. unfold window; simpl.
  replace (Z.to_nat (count rb + 1)) with (Z.to_nat (count rb) + 1)%nat by lia.
  rewrite seq_app, map_app. simpl. f_equal.
  - apply map_ext_in. intros i Hi. apply in_seq in Hi.
    rewrite load_insert_ne; [reflexivity| |].
    + apply slot_range. lia.
    + intros Heq. apply slot_inj in Heq; lia.
  - rewrite Z2Nat.id by lia.
    rewrite load_insert_eq; [reflexivity|].
    rewrite Hlen. apply slot_range. lia.
Qed.

Lemma window_overwrite size rb data :
  wf size rb -> count rb = size ->
  window size {| count := count rb; head := head rb;
                 elems := <[Z.to_nat (head rb) := data]> (elems rb) |}
  = data :: tail (window size rb).
Proof.
  intros [Hcap Hcnt Hhd Hlen] Hc. unfold window; simpl.
  replace (Z.to_nat (count rb)) with (S (Z.to_nat (count rb - 1))) by lia.
  rewrite <- cons_seq, !map_cons. simpl. f_equal.
  - change (Z.of_nat 0) with 0. rewrite slot_0 by lia.
    rewrite load_insert_eq by lia. reflexivity.
  - apply map_ext_in. intros i Hi. apply in_seq in Hi.
    rewrite load_insert_ne; [reflexivity|lia|].
    rewrite <- (slot_0 size (head rb)) at 1 by lia.
    intros Heq. apply slot_inj in Heq; lia.
Qed.

(** ** Sequences of calls on a well-formed state *)

Lemma run_app size calls1 calls2 rb :
  run size (calls1 ++ calls2) rb
  = match run size calls1 rb with
    | Fault f => Fault f
    | Ok (ps1, rb1, tr1) =>
        match run size calls2 rb1 with
        | Fault f => Fault f
        | Ok (ps2, rb2, tr2) => Ok (ps1 ++ ps2, rb2, tr1 ++ tr2)
        end
    end.
Proof.
  revert rb. induction calls1 as [|c calls1 IH]; intros rb; simpl.
  - destruct (run size calls2 rb) as [[[ps2 rb2] tr2]|f]; reflexivity.
  - destruct c as [|data].
    + destruct (readBuffer size rb) as [[[p rb1] tr1]|f]; [|reflexivity].
      rewrite IH.
      destruct (run size calls1 rb1) as [[[ps1 rb1'] tr1']|f]; [|reflexivity].
      destruct (run size calls2 rb1') as [[[ps2 rb2] tr2]|f]; [|reflexivity].
      rewrite app_assoc. reflexivity.
    + destruct (writeBuffer size rb data) as [[[u rb1] tr1]|f]; [|reflexivity].
      rewrite IH.
      destruct (run size calls1 rb1) as [[[ps1 rb1'] tr1']|f]; [|reflexivity].
      destruct (run size calls2 rb1') as [[[ps2 rb2] tr2]|f]; [|reflexivity].
      rewrite app_assoc. reflexivity.
Qed.

(** Writes that fit are appended behind the window and release nothing. *)
Lemma run_writes size ws : forall rb,
  wf size rb -> count rb + Z.of_nat (length ws) <= size ->
  exists rb',
    run size (map CallWrite ws) rb = Ok ([], rb', []) /\
    wf size rb' /\
    window size rb' = window size rb ++ ws /\
    head rb' = head rb /\
    count rb' = count rb + Z.of_nat (length ws).
Proof.
  induction ws as [|w ws IH]; intros rb Hwf Hfit; simpl in *.
  - exists rb. rewrite app_nil_r. split_and!; auto; lia.
  - assert (Hc : count rb < size) by lia.
    pose proof (write_append_step size rb Hwf w Hc) as Hw.
    rewrite Hw.
    set (rb1 := {| count := count rb + 1; head := head rb;
                   elems := <[Z.to_nat (slot size (head rb) (count rb)) := w]> (elems rb) |}) in *.
    assert (Hwf1 : wf size rb1) by (eapply wf_write; eassumption).
    destruct (IH rb1 Hwf1) as (rb' & Hrun & Hwf' & Hwin & Hhd & Hcnt);
      [subst rb1; simpl; lia|].
    exists rb'. rewrite Hrun. split_and!; auto.
    + rewrite Hwin. subst rb1. rewrite window_append by assumption.
      rewrite <- app_assoc. reflexivity.
    + rewrite Hcnt. subst rb1. simpl. lia.
Qed.

(** Draining the buffer returns the window, oldest first. *)
Lemma run_reads size : forall n rb,
  wf size rb -> Z.of_nat n = count rb ->
  exists rb',
    run size (repeat CallRead n) rb = Ok (window size rb, rb', []) /\
    wf size rb' /\
    count rb' = 0 /\
    elems rb' = elems rb.
Proof.
  induction n as [|n IH]; intros rb Hwf Hn; simpl.
  - exists rb. rewrite window_nil by lia. split_and!; auto; lia.
  - destruct (read_step size rb Hwf) as (e & He & Hr); [lia|].
    rewrite Hr.
    set (rb1 := {| count := count rb - 1; head := (head rb + 1) mod size;
                   elems := elems rb |}) in *.
    assert (Hwf1 : wf size rb1) by (eapply wf_read; eassumption).
    destruct (IH rb1 Hwf1) as (rb' & Hrun & Hwf' & Hcnt & Hel);
      [subst rb1; simpl; lia|].
    exists rb'. rewrite Hrun. split_and!; auto.
    rewrite (window_read size rb e Hwf) by (assumption || lia).
    reflexivity.
Qed.

(** ** The destructor while every index fits an [int] *)

Lemma releases_succ size a i n p :
  0 <= i < size -> load a i = Some p ->
  releases size a i (S n) = EvDeallocate p 1 :: releases size a (slot size i 1) n.
Proof.
  intros Hi Hp. unfold releases.
  rewrite <- cons_seq, <- seq_shift, map_cons, map_map. f_equal.
  - change (Z.of_nat 0) with 0. rewrite slot_0 by lia. rewrite Hp. reflexivity.
  - apply map_ext. intros k. rewrite slot_succ. do 4 f_equal. lia.
Qed.

Lemma releases_window size rb :
  releases size (elems rb) (head rb) (Z.to_nat (count rb))
  = map (fun p => EvDeallocate p 1) (window size rb).
Proof. unfold releases, window. rewrite map_map. reflexivity. Qed.

Lemma destroy_loop_in_range size : forall n fuel i rb tr,
  0 < size <= INT_MAX + 1 ->
  Z.of_nat (length (elems rb)) = size ->
  0 <= i < size ->
  count rb = Z.of_nat n -> count rb <= size ->
  (n <= fuel)%nat ->
  exists rb',
    destroy_loop fuel size i rb tr
    = Ok (rb', tr ++ releases size (elems rb) i n) /\
    count rb' = 0.
Proof.
  induction n as [|n IH]; intros fuel i rb tr Hs Hlen Hi Hn Hc Hfuel.
  - exists rb. split; [|lia].
    destruct fuel; simpl; rewrite Hn; simpl; rewrite app_nil_r; reflexivity.
  - destruct fuel as [|fuel]; [lia|].
    destruct (load_in_range (elems rb) i) as [p Hp]; [lia|].
    rewrite (releases_succ size (elems rb) i n p Hi Hp).
    assert (Hnext :
      (if to_size_t i =? to_size_t (size - 1) then Some 0
       else if i + 1 >? INT_MAX then None else Some (i + 1))
      = Some (slot size i 1)).
    { unfold INT_MAX in *.
      rewrite !to_size_t_small by (unfold SIZE_MAX; lia).
      unfold slot.
      destruct (Z.eqb_spec i (size - 1)) as [E|E].
      - replace (i + 1) with size by lia. rewrite Z_mod_same_full. reflexivity.
      - destruct (Z.gtb_spec (i + 1) (2 ^ 31 - 1)); [lia|].
        rewrite Z.mod_small by lia. reflexivity. }
    simpl. destruct (Z.gtb_spec (count rb) 0); [|lia].
    rewrite Hp, Hnext.
    rewrite to_size_t_small by (unfold SIZE_MAX, INT_MAX in *; lia).
    edestruct (IH fuel (slot size i 1)
                 {| count := count rb - 1; head := head rb; elems := elems rb |}
                 (tr ++ [EvDeallocate p 1])) as (rb' & Hrun & Hcnt);
      simpl; try eassumption; try lia.
    { apply slot_range. lia. }
    exists rb'. split; [|exact Hcnt].
    rewrite Hrun. simpl. rewrite <- app_assoc. reflexivity.
Qed.

(** With a capacity of at most [INT_MAX + 1] slots the destructor
    releases the window, oldest first, and then the backing array. *)
Lemma dtor_in_range size rb :
  wf size rb -> size <= INT_MAX + 1 ->
  RingBuffer_dtor size rb
  = Ok (map (fun p => EvDeallocate p 1) (window size rb) ++ [EvDeleteElems]).
Proof.
  intros [Hcap Hcnt Hhd Hlen] Hint. unfold RingBuffer_dtor.
  destruct (Z.gtb_spec (count rb) 0) as [Hpos|Hzero].
  - destruct (Z.eqb_spec (count rb) 0); [lia|].
    rewrite to_int_small by (unfold INT_MIN, INT_MAX in *; lia).
    destruct (destroy_loop_in_range size (Z.to_nat (count rb)) (Z.to_nat (count rb))
                (head rb) rb []) as (rb' & Hrun & _); try lia.
    rewrite Hrun. simpl. rewrite releases_window. reflexivity.
  - assert (E : count rb = 0) by lia.
    rewrite window_nil by exact E. rewrite E. reflexivity.
Qed.

(** ** Overwriting a full buffer, in general

    After [size] writes [ws] into a fresh buffer and one more write [w],
    the oldest pointer has been released, [head] has not moved, and
    draining the buffer yields [w] first, followed by the remaining
    pointers of [ws]. *)
Lemma overwrite_then_drain size indet rb0 ws w :
  0 < size ->
  RingBuffer_ctor size indet = Ok rb0 ->
  Z.of_nat (length ws) = size ->
  exists rb',
    run size (map CallWrite ws ++ CallWrite w :: repeat CallRead (length ws)) rb0
    = Ok (w :: tail ws, rb', [EvDeallocate (default nullptr (hd_error ws)) 1]) /\
    count rb' = 0.
Proof.
  intros Hs Hctor Hlen.
  pose proof (wf_ctor size indet rb0 Hs Hctor) as Hwf0.
  assert (Hc0 : count rb0 = 0).
  { unfold RingBuffer_ctor in Hctor.
    destruct (size * sizeof_ptr >? PTRDIFF_MAX); [discriminate|].
    injection Hctor as <-. reflexivity. }
  destruct (run_writes size ws rb0 Hwf0) as (rb1 & Hrun1 & Hwf1 & Hwin1 & Hhd1 & Hcnt1);
    [lia|].
  rewrite (window_nil size rb0 Hc0) in Hwin1. simpl in Hwin1.
  assert (Hfull : count rb1 = size) by lia.
  destruct (write_overwrite_step size rb1 Hwf1 w Hfull) as (old & Hold & Hw).
  set (rb2 := {| count := count rb1; head := head rb1;
                 elems := <[Z.to_nat (head rb1) := w]> (elems rb1) |}) in *.
  assert (Hwf2 : wf size rb2) by (eapply wf_write; eassumption).
  destruct (run_reads size (length ws) rb2 Hwf2) as (rb3 & Hrun3 & _ & Hcnt3 & _);
    [subst rb2; simpl; lia|].
  exists rb3. split; [|exact Hcnt3].
  rewrite run_app, Hrun1. simpl. rewrite Hw, Hrun3.
  subst rb2. rewrite window_overwrite, Hwin1 by assumption.
  assert (Hd : default nullptr (hd_error ws) = old).
  { pose proof (window_read size rb1 old Hwf1 ltac:(lia) Hold) as Hwr.
    rewrite Hwin1 in Hwr. rewrite Hwr. reflexivity. }
  rewrite Hd. reflexivity.
Qed.

(** ** States with a large [head] are reachable

    A write followed by a read on an empty buffer moves [head] one slot
    forward, so every slot index is the [head] of some reachable empty
    state, and of some reachable state that holds one element. *)
Lemma reachable_empty_at size :
  0 < size -> size * sizeof_ptr <= PTRDIFF_MAX ->
  forall n, 0 <= n -> n < size ->
  exists rb, reachable size rb /\ count rb = 0 /\ head rb = n.
Proof.
  intros Hs Hcap.
  apply (natlike_ind (fun n => n < size ->
           exists rb, reachable size rb /\ count rb = 0 /\ head rb = n)).
  - intros _.
    exists {| count := 0; head := 0;
              elems := map (fun _ => nullptr) (seq 0 (Z.to_nat size)) |}.
    split_and!; try reflexivity.
    apply reach_ctor with (indet := fun _ => nullptr).
    unfold RingBuffer_ctor.
    destruct (Z.gtb_spec (size * sizeof_ptr) PTRDIFF_MAX); [lia|reflexivity].
  - intros n Hn IH Hlt.
    destruct IH as (rb & Hr & Hc & Hh); [lia|].
    pose proof (reachable_wf size rb Hs Hr) as Hwf.
    pose proof (write_append_step size rb Hwf nullptr ltac:(lia)) as Hw.
    set (rb1 := {| count := count rb + 1; head := head rb;
                   elems := <[Z.to_nat (slot size (head rb) (count rb)) := nullptr]>
                              (elems rb) |}) in *.
    assert (Hr1 : reachable size rb1) by (eapply reach_write; eassumption).
    pose proof (reachable_wf size rb1 Hs Hr1) as Hwf1.
    destruct (read_step size rb1 Hwf1) as (e & _ & Hrd); [subst rb1; simpl; lia|].
    eexists. split; [eapply reach_read; eassumption|].
    subst rb1. simpl. split; [lia|].
    rewrite Hh. apply Z.mod_small. lia.
Qed.

Lemma reachable_single_at size n :
  0 < size -> size * sizeof_ptr <= PTRDIFF_MAX -> 1 < size ->
  0 <= n < size ->
  exists rb, reachable size rb /\ count rb = 1 /\ head rb = n.
Proof.
  intros Hs Hcap H1 Hn.
  destruct (reachable_empty_at size Hs Hcap n) as (rb & Hr & Hc & Hh); [lia..|].
  pose proof (reachable_wf size rb Hs Hr) as Hwf.
  pose proof (write_append_step size rb Hwf nullptr ltac:(lia)) as Hw.
  eexists. split; [eapply reach_write; eassumption|].
  simpl. split; [lia | exact Hh].
Qed.

(** With [head = 2^31] the destructor's [int] index starts below the
    array, whatever the array holds. *)
Lemma dtor_negative_index (a : list ptr) :
  RingBuffer_dtor (2 ^ 31 + 1) {| count := 1; head := 2 ^ 31; elems := a |}
  = Fault UndefinedBehaviour.
Proof. reflexivity. Qed.

(** An empty buffer only gives back its array. *)
Lemma dtor_empty size rb :
  count rb = 0 -> RingBuffer_dtor size rb = Ok [EvDeleteElems].
Proof. intros H. unfold RingBuffer_dtor. rewrite H. reflexivity. Qed.

(** No call faults on a well-formed state. *)
Lemma wf_progress size rb data :
  wf size rb ->
  (exists p rb' tr, readBuffer size rb = Ok (p, rb', tr)) /\
  (exists rb' tr, writeBuffer size rb data = Ok (tt, rb', tr)).
Proof.
  intros Hwf. pose proof Hwf as [Hcap Hcnt Hhd Hlen]. split.
  - destruct (Z.eq_dec (count rb) 0) as [E|E].
    + do 3 eexists. apply read_empty_step. exact E.
    + destruct (read_step size rb Hwf) as (e & _ & Hr); [lia|]. eauto.
  - destruct (Z.eq_dec (count rb) size) as [E|E].
    + destruct (write_overwrite_step size rb Hwf data E) as (old & _ & Hw). eauto.
    + do 2 eexists. apply write_append_step; [assumption|lia].
Qed.

(** * The claims *)

(** C1 (the code departs from the claim).  On a full buffer of capacity 3
    with [head = 0], [writeBuffer] releases the pointer at slot [head],
    stores the new pointer there and keeps [count = 3], but it leaves
    [head] at 0 where the claim has it advance to [(head + 1) mod 3 = 1]. *)
Theorem writeBuffer_full_head_not_advanced :
  writeBuffer 3 {| count := 3; head := 0; elems := [10; 20; 30] |} 40
  = Ok (tt, {| count := 3; head := 0; elems := [40; 20; 30] |},
        [EvDeallocate 10 1])
  /\ head {| count := 3; head := 0; elems := [40; 20; 30] |}
     <> (head {| count := 3; head := 0; elems := [10; 20; 30] |} + 1) mod 3.
Proof. split; [reflexivity | discriminate]. Qed.

(** C2 (the code departs from the claim).  With capacity 3, the writes
    1, 2, 3, 4 into a fresh buffer release the pointer 1, and the next
    three reads return 4, 2, 3: the newest pointer comes out first, where
    the claim has the reads return 2, 3, 4. *)
Theorem overwrite_reads_newest_first :
  RingBuffer_ctor 3 (fun i => Z.of_nat i + 7) = Ok fresh3 /\
  run 3 [CallWrite 1; CallWrite 2; CallWrite 3; CallWrite 4;
         CallRead; CallRead; CallRead] fresh3
  = Ok ([4; 2; 3], {| count := 0; head := 0; elems := [4; 2; 3] |},
        [EvDeallocate 1 1]).
Proof. split; reflexivity. Qed.

(** C3.  Writing [k <= size] pointers [ws] into a freshly constructed
    buffer and then reading [k] times returns exactly [ws], in write
    order, with no release; afterwards [count] is 0. *)
Theorem fifo_write_then_read size indet rb0 ws :
  RingBuffer_ctor size indet = Ok rb0 ->
  Z.of_nat (length ws) <= size ->
  exists rb',
    run size (map CallWrite ws ++ repeat CallRead (length ws)) rb0
    = Ok (ws, rb', []) /\
    count rb' = 0.
Proof.
  intros Hctor Hk.
  assert (Hc0 : count rb0 = 0).
  { unfold RingBuffer_ctor in Hctor.
    destruct (size * sizeof_ptr >? PTRDIFF_MAX); [discriminate|].
    injection Hctor as <-. reflexivity. }
  destruct ws as [|w ws].
  - exists rb0. split; [reflexivity | exact Hc0].
  - assert (Hs : 0 < size) by (simpl in Hk; lia).
    pose proof (wf_ctor size indet rb0 Hs Hctor) as Hwf0.
    destruct (run_writes size (w :: ws) rb0 Hwf0)
      as (rb1 & Hrun1 & Hwf1 & Hwin1 & _ & Hcnt1); [lia|].
    rewrite (window_nil size rb0 Hc0) in Hwin1. simpl app in Hwin1.
    destruct (run_reads size (length (w :: ws)) rb1 Hwf1)
      as (rb2 & Hrun2 & _ & Hcnt2 & _); [lia|].
    exists rb2. split; [|exact Hcnt2].
    rewrite run_app, Hrun1, Hrun2, Hwin1, app_nil_r. reflexivity.
Qed.

(** C4.  In every state reachable from the constructor by reads and
    writes, [0 <= count <= size] and [0 <= head < size]. *)
Theorem reachable_bounds size rb :
  0 < size -> reachable size rb ->
  0 <= count rb <= size /\ 0 <= head rb < size.
Proof.
  intros Hs Hr. destruct (reachable_wf size rb Hs Hr) as [_ Hc Hh _].
  split; assumption.
Qed.

(** C5.  On a buffer with [count = 0], [readBuffer] returns [nullptr],
    performs no release and leaves [head], [count] and the storage as
    they were. *)
Theorem readBuffer_empty size rb :
  count rb = 0 -> readBuffer size rb = Ok (nullptr, rb, []).
Proof. intros H. unfold readBuffer. rewrite H. reflexivity. Qed.

(** C6.  On a well-formed buffer with [count < size], [writeBuffer]
    stores the pointer at slot [(head + count) mod size] and increments
    [count]; it performs no release, leaves [head] and every other slot
    as they were, and the slot it writes is outside the logical window, so
    the window only grows by the new pointer at its end. *)
Theorem writeBuffer_not_full size rb data :
  wf size rb -> count rb < size ->
  exists rb',
    writeBuffer size rb data = Ok (tt, rb', []) /\
    count rb' = count rb + 1 /\
    head rb' = head rb /\
    load (elems rb') ((head rb + count rb) mod size) = Some data /\
    (forall j, j <> (head rb + count rb) mod size ->
               load (elems rb') j = load (elems rb) j) /\
    (forall i, 0 <= i < count rb ->
               (head rb + i) mod size <> (head rb + count rb) mod size) /\
    window size rb' = window size rb ++ [data].
Proof.
  intros Hwf Hc. pose proof Hwf as [Hcap Hcnt Hhd Hlen].
  eexists. split; [apply write_append_step; assumption|]. simpl.
  fold (slot size (head rb) (count rb)).
  pose proof (slot_range size (head rb) (count rb) ltac:(lia)) as Hr.
  split_and!; try reflexivity.
  - apply load_insert_eq. lia.
  - intros j Hj. apply load_insert_ne; [lia|congruence].
  - intros i Hi Heq. apply (slot_inj size (head rb) i (count rb)) in Heq; lia.
  - apply window_append; assumption.
Qed.

(** C7.  On a well-formed buffer with [count > 0], [readBuffer] returns
    the pointer stored at slot [head], sets [head] to
    [(head + 1) mod size], decrements [count], performs no release and
    leaves the storage untouched. *)
Theorem readBuffer_nonempty size rb :
  wf size rb -> 0 < count rb ->
  exists element,
    load (elems rb) (head rb) = Some element /\
    readBuffer size rb
    = Ok (element,
          {| count := count rb - 1; head := (head rb + 1) mod size;
             elems := elems rb |}, []).
Proof. intros Hwf Hc. apply read_step; assumption. Qed.

(** C8 (the code departs from the claim).  The destructor walks the
    window with an [int] index.  A buffer of capacity [2^31 + 1] can reach
    a state with [head = 2^31] and one stored element; there the index
    starts at [INT_MIN], so the first release reads
    [elems[-2147483648]], outside the array, instead of slot [head]. *)
Theorem dtor_int_index_escapes :
  to_int (2 ^ 31) = INT_MIN /\
  exists rb,
    reachable (2 ^ 31 + 1) rb /\
    count rb = 1 /\ head rb = 2 ^ 31 /\
    RingBuffer_dtor (2 ^ 31 + 1) rb = Fault UndefinedBehaviour.
Proof.
  split; [reflexivity|].
  destruct (reachable_single_at (2 ^ 31 + 1) (2 ^ 31)) as (rb & Hr & Hc & Hh);
    [unfold sizeof_ptr, PTRDIFF_MAX; lia..|].
  exists rb. split_and!; try assumption.
  destruct rb as [c h a]. simpl in Hc, Hh. subst c h.
  apply dtor_negative_index.
Qed.

(** C9.  On every well-formed buffer, full or not, [writeBuffer] returns
    and leaves [head] unchanged. *)
Theorem writeBuffer_leaves_head size rb data :
  wf size rb ->
  exists rb' tr,
    writeBuffer size rb data = Ok (tt, rb', tr) /\ head rb' = head rb.
Proof.
  intros Hwf. pose proof Hwf as [Hcap Hcnt Hhd Hlen].
  destruct (Z.eq_dec (count rb) size) as [E|E].
  - destruct (write_overwrite_step size rb Hwf data E) as (old & _ & Hw).
    do 2 eexists. split; [exact Hw | reflexivity].
  - do 2 eexists. split; [apply write_append_step; [assumption|lia] | reflexivity].
Qed.

(** C10.  On a well-formed full buffer, the [readBuffer] that follows a
    [writeBuffer data] returns [data] itself. *)
Theorem write_full_then_read size rb data :
  wf size rb -> count rb = size ->
  exists rb1 tr rb2,
    writeBuffer size rb data = Ok (tt, rb1, tr) /\
    readBuffer size rb1 = Ok (data, rb2, []).
Proof.
  intros Hwf Hfull. pose proof Hwf as [Hcap Hcnt Hhd Hlen].
  destruct (write_overwrite_step size rb Hwf data Hfull) as (old & _ & Hw).
  set (rb1 := {| count := count rb; head := head rb;
                 elems := <[Z.to_nat (head rb) := data]> (elems rb) |}) in *.
  assert (Hwf1 : wf size rb1) by (eapply wf_write; eassumption).
  destruct (read_step size rb1 Hwf1) as (e & He & Hr); [subst rb1; simpl; lia|].
  assert (e = data) as ->.
  { subst rb1. simpl in He. rewrite load_insert_eq in He by lia. congruence. }
  do 3 eexists. split; [exact Hw | exact Hr].
Qed.

(** * Instances of the claims on concrete buffers of capacity 3 *)

Lemma wf_full3 : wf 3 full3.
Proof. split; simpl; unfold sizeof_ptr, PTRDIFF_MAX; lia. Defined.

Lemma wf_part3 : wf 3 part3.
Proof. split; simpl; unfold sizeof_ptr, PTRDIFF_MAX; lia. Defined.

Lemma fifo_write_then_read_witness :
  RingBuffer_ctor 3 (fun i => Z.of_nat i + 7) = Ok fresh3 /\
  Z.of_nat (length [11; 12]) <= 3 /\
  exists rb',
    run 3 (map CallWrite [11; 12] ++ repeat CallRead (length [11; 12])) fresh3
    = Ok ([11; 12], rb', []) /\
    count rb' = 0.
Proof.
  split; [reflexivity|]. split; [simpl; lia|].
  apply (fifo_write_then_read 3 (fun i => Z.of_nat i + 7) fresh3 [11; 12]);
    [reflexivity | simpl; lia].
Defined.

Lemma reachable_part3 : reachable 3 {| count := 1; head := 1; elems := [11; 12; 9] |}.
Proof.
  eapply reach_read with (rb := {| count := 2; head := 0; elems := [11; 12; 9] |});
    [|reflexivity].
  eapply reach_write with (rb := {| count := 1; head := 0; elems := [11; 8; 9] |})
                          (data := 12); [|reflexivity].
  eapply reach_write with (rb := fresh3) (data := 11); [|reflexivity].
  apply reach_ctor with (indet := fun i => Z.of_nat i + 7). reflexivity.
Defined.

Lemma reachable_bounds_witness :
  0 < 3 /\
  reachable 3 {| count := 1; head := 1; elems := [11; 12; 9] |} /\
  0 <= count {| count := 1; head := 1; elems := [11; 12; 9] |} <= 3 /\
  0 <= head {| count := 1; head := 1; elems := [11; 12; 9] |} < 3.
Proof.
  split; [lia|]. split; [exact reachable_part3|].
  apply (reachable_bounds 3 _); [lia | exact reachable_part3].
Defined.

Lemma readBuffer_empty_witness :
  count fresh3 = 0 /\ readBuffer 3 fresh3 = Ok (nullptr, fresh3, []).
Proof.
  split; [reflexivity|]. apply (readBuffer_empty 3 fresh3). reflexivity.
Defined.

Lemma writeBuffer_not_full_witness :
  wf 3 part3 /\ count part3 < 3 /\
  exists rb',
    writeBuffer 3 part3 40 = Ok (tt, rb', []) /\
    count rb' = count part3 + 1 /\
    head rb' = head part3 /\
    load (elems rb') ((head part3 + count part3) mod 3) = Some 40 /\
    (forall j, j <> (head part3 + count part3) mod 3 ->
               load (elems rb') j = load (elems part3) j) /\
    (forall i, 0 <= i < count part3 ->
               (head part3 + i) mod 3 <> (head part3 + count part3) mod 3) /\
    window 3 rb' = window 3 part3 ++ [40].
Proof.
  split; [exact wf_part3|]. split; [simpl; lia|].
  apply (writeBuffer_not_full 3 part3 40); [exact wf_part3 | simpl; lia].
Defined.

Lemma readBuffer_nonempty_witness :
  wf 3 part3 /\ 0 < count part3 /\
  exists element,
    load (elems part3) (head part3) = Some element /\
    readBuffer 3 part3
    = Ok (element,
          {| count := count part3 - 1; head := (head part3 + 1) mod 3;
             elems := elems part3 |}, []).
Proof.
  split; [exact wf_part3|]. split; [simpl; lia|].
  apply (readBuffer_nonempty 3 part3); [exact wf_part3 | simpl; lia].
Defined.

Lemma writeBuffer_leaves_head_witness :
  wf 3 full3 /\
  exists rb' tr,
    writeBuffer 3 full3 40 = Ok (tt, rb', tr) /\ head rb' = head full3.
Proof.
  split; [exact wf_full3|].
  apply (writeBuffer_leaves_head 3 full3 40). exact wf_full3.
Defined.

Lemma write_full_then_read_witness :
  wf 3 full3 /\ count full3 = 3 /\
  exists rb1 tr rb2,
    writeBuffer 3 full3 40 = Ok (tt, rb1, tr) /\
    readBuffer 3 rb1 = Ok (40, rb2, []).
Proof.
  split; [exact wf_full3|]. split; [reflexivity|].
  apply (write_full_then_read 3 full3 40); [exact wf_full3 | reflexivity].
Defined.

(** * Further properties of the member functions *)

(** ** The circular array implements the list view *)

Lemma window_cons_full size rb :
  wf size rb -> 0 < count rb ->
  exists old, load (elems rb) (head rb) = Some old /\
              window size rb = old :: tail (window size rb).
Proof.
  intros Hwf Hc.
  destruct (read_step size rb Hwf Hc) as (old & Hold & _).
  exists old. split; [exact Hold|].
  rewrite (window_read size rb old Hwf Hc Hold) at 1.
  rewrite (window_read size rb old Hwf Hc Hold). reflexivity.
Qed.

Lemma read_refines size rb :
  wf size rb ->
  exists rb',
    readBuffer size rb = Ok ((queue_read (window size rb)).1, rb', []) /\
    wf size rb' /\
    window size rb' = (queue_read (window size rb)).2.
Proof.
  intros Hwf. pose proof Hwf as [Hcap Hcnt Hhd Hlen].
  destruct (Z.eq_dec (count rb) 0) as [E|E].
  - exists rb. rewrite (window_nil size rb E). simpl.
    split_and!; auto. apply read_empty_step. exact E.
  - destruct (read_step size rb Hwf) as (e & He & Hr); [lia|].
    eexists. split_and!.
    + rewrite (window_read size rb e Hwf) by (assumption || lia). exact Hr.
    + eapply wf_read; eassumption.
    + rewrite (window_read size rb e Hwf) by (assumption || lia). reflexivity.
Qed.

Lemma write_refines size rb data :
  wf size rb ->
  exists rb',
    writeBuffer size rb data
    = Ok (tt, rb', (queue_write size (window size rb) data).2) /\
    wf size rb' /\
    window size rb' = (queue_write size (window size rb) data).1.
Proof.
  intros Hwf. pose proof Hwf as [Hcap Hcnt Hhd Hlen].
  pose proof (window_length size rb) as Hwl.
  destruct (Z.eq_dec (count rb) size) as [E|E].
  - destruct (window_cons_full size rb Hwf) as (old & Hold & Hwin); [lia|].
    destruct (write_overwrite_step size rb Hwf data E) as (old' & Hold' & Hw).
    assert (old' = old) as -> by congruence.
    unfold queue_write. rewrite Hwin. rewrite <- Hwin.
    destruct (Z.eqb_spec (Z.of_nat (length (window size rb))) size); [|lia].
    eexists. split_and!; [exact Hw | eapply wf_write; eassumption |].
    apply window_overwrite; assumption.
  - assert (Hlt : count rb < size) by lia.
    pose proof (write_append_step size rb Hwf data Hlt) as Hw.
    assert (Hq : queue_write size (window size rb) data
                 = (window size rb ++ [data], [])).
    { unfold queue_write. destruct (window size rb) as [|old q'] eqn:Hwin;
        [reflexivity|].
      destruct (Z.eqb_spec (Z.of_nat (length (old :: q'))) size); [lia|].
      reflexivity. }
    rewrite Hq. simpl.
    eexists. split_and!; [exact Hw | eapply wf_write; eassumption |].
    apply window_append; assumption.
Qed.

Lemma run_refines size calls : forall rb,
  wf size rb ->
  exists rb',
    run size calls rb
    = Ok ((queue_run size calls (window size rb)).1.1, rb',
          (queue_run size calls (window size rb)).2) /\
    wf size rb' /\
    window size rb' = (queue_run size calls (window size rb)).1.2.
Proof.
  induction calls as [|c calls IH]; intros rb Hwf.
  - exists rb. simpl. auto.
  - destruct c as [|data]; simpl.
    + destruct (read_refines size rb Hwf) as (rb1 & Hr & Hwf1 & Hwin1).
      destruct (IH rb1 Hwf1) as (rb2 & Hrun & Hwf2 & Hwin2).
      rewrite Hwin1 in Hrun, Hwin2.
      exists rb2. rewrite Hr, Hrun. split_and!; [reflexivity | assumption..].
    + destruct (write_refines size rb data Hwf) as (rb1 & Hw & Hwf1 & Hwin1).
      destruct (IH rb1 Hwf1) as (rb2 & Hrun & Hwf2 & Hwin2).
      rewrite Hwin1 in Hrun, Hwin2.
      exists rb2. rewrite Hw, Hrun. split_and!; [reflexivity | assumption..].
Qed.

(** ** Accounting on the list view *)

Lemma released_app tr1 tr2 : released (tr1 ++ tr2) = released tr1 ++ released tr2.
Proof. unfold released. apply flat_map_app. Qed.

Lemma queue_write_nonnull size q data :
  Forall nonnull q -> nonnull data -> Forall nonnull (queue_write size q data).1.
Proof.
  intros Hq Hd. unfold queue_write. destruct q as [|old q'].
  - repeat constructor. exact Hd.
  - destruct (Z.of_nat (length (old :: q')) =? size); cbn [fst snd].
    + inversion Hq; subst. constructor; assumption.
    + apply Forall_app. split; [exact Hq|]. repeat constructor. exact Hd.
Qed.

Lemma queue_write_conserves size q data :
  data :: q ≡ₚ released (queue_write size q data).2 ++ (queue_write size q data).1.
Proof.
  unfold queue_write. destruct q as [|old q']; [reflexivity|].
  destruct (Z.of_nat (length (old :: q')) =? size); cbn [fst snd].
  - apply perm_swap.
  - change (released []) with (@nil Z). cbn [app].
    rewrite (Permutation_app_comm (old :: q') [data]). reflexivity.
Qed.

Lemma written_read calls : written (CallRead :: calls) = written calls.
Proof. reflexivity. Qed.

Lemma written_write data calls :
  written (CallWrite data :: calls) = data :: written calls.
Proof. reflexivity. Qed.

Lemma queue_run_read size calls q :
  queue_run size (CallRead :: calls) q
  = ((queue_read q).1 :: (queue_run size calls (queue_read q).2).1.1,
     (queue_run size calls (queue_read q).2).1.2,
     (queue_run size calls (queue_read q).2).2).
Proof. reflexivity. Qed.

Lemma queue_run_write size data calls q :
  queue_run size (CallWrite data :: calls) q
  = ((queue_run size calls (queue_write size q data).1).1.1,
     (queue_run size calls (queue_write size q data).1).1.2,
     (queue_write size q data).2
       ++ (queue_run size calls (queue_write size q data).1).2).
Proof. reflexivity. Qed.

Lemma queue_run_conserves size calls : forall q,
  Forall nonnull q -> Forall nonnull (written calls) ->
  q ++ written calls
  ≡ₚ filter nonnull (queue_run size calls q).1.1
     ++ released (queue_run size calls q).2
     ++ (queue_run size calls q).1.2.
Proof.
  induction calls as [|c calls IH]; intros q Hq Hw.
  - cbn. rewrite app_nil_r. reflexivity.
  - destruct c as [|data].
    + rewrite written_read in *. rewrite queue_run_read. cbn [fst snd].
      destruct q as [|p q']; cbn [queue_read fst snd].
      * rewrite filter_cons_False by (unfold nonnull; tauto).
        apply (IH []); assumption.
      * inversion Hq; subst.
        rewrite filter_cons_True by assumption.
        cbn [app]. constructor. apply IH; assumption.
    + rewrite written_write in *. rewrite queue_run_write. cbn [fst snd].
      inversion Hw; subst.
      transitivity ((data :: q) ++ written calls);
        [symmetry; apply Permutation_middle|].
      rewrite (queue_write_conserves size q data).
      rewrite <- app_assoc.
      rewrite (IH (queue_write size q data).1)
        by (try apply queue_write_nonnull; assumption).
      rewrite released_app.
      rewrite app_assoc.
      rewrite (Permutation_app_comm (released (queue_write size q data).2)).
      rewrite <- !app_assoc. reflexivity.
Qed.

(** Without a release, the pointers leave in the order they came. *)
Lemma queue_run_fifo size calls : forall q,
  Forall nonnull q -> Forall nonnull (written calls) ->
  (queue_run size calls q).2 = [] ->
  q ++ written calls
  = filter nonnull (queue_run size calls q).1.1 ++ (queue_run size calls q).1.2.
Proof.
  induction calls as [|c calls IH]; intros q Hq Hw Htr.
  - cbn. rewrite app_nil_r. reflexivity.
  - destruct c as [|data].
    + rewrite written_read in *. rewrite queue_run_read in *. cbn [fst snd] in *.
      destruct q as [|p q']; cbn [queue_read fst snd] in *.
      * rewrite filter_cons_False by (unfold nonnull; tauto).
        apply (IH []); assumption.
      * inversion Hq; subst.
        rewrite filter_cons_True by assumption.
        cbn [app]. f_equal. apply IH; assumption.
    + rewrite written_write in *. rewrite queue_run_write in *. cbn [fst snd] in *.
      inversion Hw; subst.
      apply app_eq_nil in Htr. destruct Htr as [Htr1 Htr2].
      rewrite <- (IH (queue_write size q data).1)
        by (try apply queue_write_nonnull; assumption).
      unfold queue_write in *. destruct q as [|old q']; [reflexivity|].
      destruct (Z.of_nat (length (old :: q')) =? size); [discriminate|].
      cbn [fst]. rewrite <- app_assoc. reflexivity.
Qed.

Lemma queue_write_full size old q' data :
  Z.of_nat (length (old :: q')) = size ->
  queue_write size (old :: q') data = (data :: q', [EvDeallocate old 1]).
Proof.
  intros Hlen. unfold queue_write.
  destruct (Z.eqb_spec (Z.of_nat (length (old :: q'))) size); [reflexivity|lia].
Qed.

(** On a full window every further write replaces the front pointer. *)
Lemma queue_run_full_writes size q' : forall ds old d,
  Z.of_nat (length (old :: q')) = size ->
  queue_run size (map CallWrite (d :: ds)) (old :: q')
  = ([], List.last (d :: ds) nullptr :: q',
     map (fun p => EvDeallocate p 1) (old :: removelast (d :: ds))).
Proof.
  induction ds as [|d' ds IH]; intros old d Hlen.
  - cbn [map]. rewrite queue_run_write, queue_write_full by exact Hlen.
    reflexivity.
  - change (map CallWrite (d :: d' :: ds))
      with (CallWrite d :: map CallWrite (d' :: ds)).
    rewrite queue_run_write, queue_write_full by exact Hlen.
    cbn [fst snd]. rewrite (IH d d') by exact Hlen. reflexivity.
Qed.

(** ** Helpers for the properties below *)


(** A write that returns has left [head] alone, on any state. *)
Lemma write_keeps_head size rb data u rb' tr :
  writeBuffer size rb data = Ok (u, rb', tr) -> head rb' = head rb.
Proof.
  unfold writeBuffer.
  destruct (count rb =? size).
  - destruct (load (elems rb) (head rb)); [|discriminate].
    destruct (store (elems rb) (head rb) data); [|discriminate].
    intros [= <- <- <-]. reflexivity.
  - destruct (size =? 0); [discriminate|].
    destruct (store (elems rb) _ data); [|discriminate].
    intros [= <- <- <-]. reflexivity.
Qed.

Lemma run_writes_keep_head size : forall ds rb ps rb' tr,
  run size (map CallWrite ds) rb = Ok (ps, rb', tr) -> head rb' = head rb.
Proof.
  induction ds as [|d ds IH]; intros rb ps rb' tr; cbn [map run].
  - intros [= <- <- <-]. reflexivity.
  - destruct (writeBuffer size rb d) as [[[u rb1] tr1]|f] eqn:Hw; [|discriminate].
    destruct (run size (map CallWrite ds) rb1) as [[[ps2 rb2] tr2]|f] eqn:Hrun;
      [|discriminate].
    intros [= <- <- <-].
    rewrite (IH _ _ _ _ Hrun). eapply write_keeps_head. exact Hw.
Qed.

Lemma ctor_fresh size indet rb :
  RingBuffer_ctor size indet = Ok rb -> count rb = 0 /\ head rb = 0.
Proof.
  unfold RingBuffer_ctor.
  destruct (size * sizeof_ptr >? PTRDIFF_MAX); [discriminate|].
  intros [= <-]. split; reflexivity.
Qed.

(** Reading [n] times: the first [n] pointers of the window, then
    [nullptr] for every read that finds the buffer empty. *)
Lemma run_reads_any size : forall n rb,
  wf size rb ->
  exists rb',
    run size (repeat CallRead n) rb
    = Ok (take n (window size rb)
            ++ repeat nullptr (n - Z.to_nat (count rb)), rb', []) /\
    count rb' = count rb - Z.min (Z.of_nat n) (count rb) /\
    head rb' = (head rb + Z.min (Z.of_nat n) (count rb)) mod size /\
    elems rb' = elems rb.
Proof.
  induction n as [|n IH]; intros rb Hwf; pose proof Hwf as [Hcap Hcnt Hhd Hlen].
  - exists rb. cbn [repeat run take Nat.sub app].
    split_and!; try reflexivity; [lia|].
    replace (Z.min (Z.of_nat 0) (count rb)) with 0 by lia.
    rewrite Z.add_0_r, Z.mod_small by lia. reflexivity.
  - cbn [repeat run].
    destruct (Z.eq_dec (count rb) 0) as [E|E].
    + rewrite (read_empty_step size rb E).
      destruct (IH rb Hwf) as (rb' & Hrun & Hc & Hh & He).
      exists rb'. rewrite Hrun.
      rewrite (window_nil size rb E), E in *.
      rewrite !take_nil. cbn [app].
      replace (S n - Z.to_nat 0)%nat with (S (n - Z.to_nat 0)) by lia.
      split_and!; [reflexivity|lia| |exact He].
      rewrite Hh. f_equal. lia.
    + destruct (read_step size rb Hwf) as (e & Hld & Hr); [lia|].
      rewrite Hr.
      set (rb1 := {| count := count rb - 1; head := (head rb + 1) mod size;
                     elems := elems rb |}) in *.
      assert (Hwf1 : wf size rb1) by (eapply wf_read; eassumption).
      destruct (IH rb1 Hwf1) as (rb' & Hrun & Hc & Hh & He).
      exists rb'. rewrite Hrun.
      rewrite (window_read size rb e Hwf) by (assumption || lia).
      fold rb1. subst rb1. cbn [count head elems] in *.
      replace (S n - Z.to_nat (count rb))%nat
        with (n - Z.to_nat (count rb - 1))%nat by lia.
      split_and!; [reflexivity|lia| |exact He].
      rewrite Hh, Zplus_mod_idemp_l. f_equal. lia.
Qed.

(** ** Properties of sequences of calls *)

(** X1.  On a well-formed buffer every sequence of [readBuffer] and
    [writeBuffer] calls runs to its end, and what it returns, what it
    releases and the window it leaves are those of the list view: a read
    takes the front pointer ([nullptr] on an empty buffer), a write on a
    full buffer replaces the front pointer and releases the old one, any
    other write appends. *)
Theorem run_simulates_queue size calls rb :
  wf size rb ->
  exists rb',
    run size calls rb
    = Ok ((queue_run size calls (window size rb)).1.1, rb',
          (queue_run size calls (window size rb)).2) /\
    window size rb' = (queue_run size calls (window size rb)).1.2.
Proof.
  intros Hwf. destruct (run_refines size calls rb Hwf) as (rb' & Hrun & _ & Hwin).
  exists rb'. split; assumption.
Qed.

(** X2.  For a capacity of at least one, no sequence of calls on a
    constructed buffer reaches undefined behaviour, and the state it ends
    in satisfies the class invariant. *)
Theorem run_never_faults size indet rb0 calls :
  0 < size -> RingBuffer_ctor size indet = Ok rb0 ->
  exists ps rb' tr, run size calls rb0 = Ok (ps, rb', tr) /\ wf size rb'.
Proof.
  intros Hs Hctor. pose proof (wf_ctor size indet rb0 Hs Hctor) as Hwf.
  destruct (run_refines size calls rb0 Hwf) as (rb' & Hrun & Hwf' & _).
  eauto 6.
Qed.

(** X3.  Ownership is conserved: when the window and the written
    pointers are non-null, the pointers the buffer held or was given are,
    counted with multiplicity, exactly those it returned from reads,
    those it passed to [deallocate], and those still in its window. *)
Theorem run_conserves_pointers size calls rb :
  wf size rb ->
  Forall nonnull (window size rb) -> Forall nonnull (written calls) ->
  exists ps rb' tr,
    run size calls rb = Ok (ps, rb', tr) /\
    window size rb ++ written calls
    ≡ₚ filter nonnull ps ++ released tr ++ window size rb'.
Proof.
  intros Hwf Hq Hw.
  destruct (run_refines size calls rb Hwf) as (rb' & Hrun & _ & Hwin).
  do 3 eexists. split; [exact Hrun|].
  rewrite Hwin. apply queue_run_conserves; assumption.
Qed.

(** X4.  As long as no call releases anything, the buffer is a FIFO also
    under interleaved reads and writes: the window followed by the
    written pointers is the sequence of pointers returned by the reads
    followed by the final window. *)
Theorem run_fifo_without_release size calls rb ps rb' :
  wf size rb ->
  Forall nonnull (window size rb) -> Forall nonnull (written calls) ->
  run size calls rb = Ok (ps, rb', []) ->
  window size rb ++ written calls = filter nonnull ps ++ window size rb'.
Proof.
  intros Hwf Hq Hw Hrun.
  destruct (run_refines size calls rb Hwf) as (rb2 & Hrun2 & _ & Hwin).
  rewrite Hrun2 in Hrun. injection Hrun as Hps Hrb Htr. subst rb2.
  rewrite <- Hps, Hwin. apply queue_run_fifo; assumption.
Qed.

(** X5.  Once the buffer is full, a run of further writes only ever
    replaces the pointer at slot [head]: the first write releases the
    oldest pointer, each later write releases the pointer written just
    before it, the other [size - 1] pointers stay where they are, and
    [head] and [count] do not change. *)
Theorem full_writes_replace_front size rb d ds :
  wf size rb -> count rb = size ->
  exists old rb',
    load (elems rb) (head rb) = Some old /\
    run size (map CallWrite (d :: ds)) rb
    = Ok ([], rb', map (fun p => EvDeallocate p 1) (old :: removelast (d :: ds))) /\
    window size rb' = List.last (d :: ds) nullptr :: tail (window size rb) /\
    head rb' = head rb /\ count rb' = size.
Proof.
  intros Hwf Hfull. pose proof Hwf as [Hcap Hcnt Hhd Hlen].
  destruct (window_cons_full size rb Hwf) as (old & Hold & Hwin); [lia|].
  destruct (run_refines size (map CallWrite (d :: ds)) rb Hwf)
    as (rb' & Hrun & Hwf' & Hwin').
  pose proof (window_length size rb) as Hwl.
  rewrite Hwin in Hrun, Hwin'.
  rewrite queue_run_full_writes in Hrun, Hwin'
    by (rewrite <- Hwin; lia).
  cbn [fst snd] in Hrun, Hwin'.
  exists old, rb'. split_and!; [exact Hold | exact Hrun | exact Hwin' | |].
  - eapply run_writes_keep_head. exact Hrun.
  - pose proof (window_length size rb') as Hwl'.
    rewrite Hwin' in Hwl'. rewrite Hwin in Hwl.
    destruct Hwf' as [_ Hcnt' _ _]. cbn [length] in Hwl, Hwl'. lia.
Qed.

(** X6.  Reading [n] times in a row returns the first [n] pointers of
    the window and then [nullptr] for each read made on the emptied
    buffer; [head] advances by the number of pointers actually taken,
    modulo [size], no release happens and the array is not modified. *)
Theorem reads_take_prefix size rb n :
  wf size rb ->
  exists rb',
    run size (repeat CallRead n) rb
    = Ok (take n (window size rb)
            ++ repeat nullptr (n - Z.to_nat (count rb)), rb', []) /\
    count rb' = count rb - Z.min (Z.of_nat n) (count rb) /\
    head rb' = (head rb + Z.min (Z.of_nat n) (count rb)) mod size /\
    elems rb' = elems rb.
Proof. intros Hwf. apply run_reads_any. exact Hwf. Qed.

(** X7.  As long as callers only write non-null pointers, [readBuffer]
    returns [nullptr] exactly when the buffer is empty. *)
Theorem read_null_iff_empty size rb :
  wf size rb -> Forall nonnull (window size rb) ->
  exists p rb',
    readBuffer size rb = Ok (p, rb', []) /\
    (p = nullptr <-> count rb = 0).
Proof.
  intros Hwf Hq. pose proof Hwf as [Hcap Hcnt Hhd Hlen].
  destruct (Z.eq_dec (count rb) 0) as [E|E].
  - exists nullptr, rb. split; [apply read_empty_step; exact E | tauto].
  - destruct (read_step size rb Hwf) as (e & Hld & Hr); [lia|].
    do 2 eexists. split; [exact Hr|].
    rewrite (window_read size rb e Hwf) in Hq by (assumption || lia).
    inversion Hq; subst. unfold nonnull in *. tauto.
Qed.

(** ** Properties of the constructor and the destructor *)

(** X8.  With a capacity of at most [INT_MAX + 1] slots the destructor
    finishes, calls [deallocate] exactly on the pointers of the window,
    oldest first and once each, and then deletes the array once. *)
Theorem dtor_releases_window size rb :
  wf size rb -> size <= INT_MAX + 1 ->
  RingBuffer_dtor size rb
  = Ok (map (fun p => EvDeallocate p 1) (window size rb) ++ [EvDeleteElems]).
Proof. intros Hwf Hs. apply dtor_in_range; assumption. Qed.



(** ** Instances of these properties on buffers of capacity 3 *)

Ltac nonnull_list :=
  vm_compute; repeat constructor; try (intros Hnull; discriminate Hnull).

Lemma wf_fresh3 : wf 3 fresh3.
Proof. split; simpl; unfold sizeof_ptr, PTRDIFF_MAX; lia. Defined.

Lemma run_simulates_queue_witness :
  wf 3 part3 /\
  exists rb',
    run 3 [CallWrite 40; CallRead; CallWrite 50; CallWrite 60; CallRead] part3
    = Ok ((queue_run 3 [CallWrite 40; CallRead; CallWrite 50; CallWrite 60; CallRead]
             (window 3 part3)).1.1, rb',
          (queue_run 3 [CallWrite 40; CallRead; CallWrite 50; CallWrite 60; CallRead]
             (window 3 part3)).2) /\
    window 3 rb'
    = (queue_run 3 [CallWrite 40; CallRead; CallWrite 50; CallWrite 60; CallRead]
         (window 3 part3)).1.2.
Proof.
  split; [exact wf_part3|].
  apply (run_simulates_queue 3 _ part3). exact wf_part3.
Defined.

Lemma run_never_faults_witness :
  0 < 3 /\
  RingBuffer_ctor 3 (fun i => Z.of_nat i + 7) = Ok fresh3 /\
  exists ps rb' tr,
    run 3 [CallRead; CallWrite 1; CallWrite 2; CallWrite 3; CallWrite 4; CallRead]
        fresh3 = Ok (ps, rb', tr) /\
    wf 3 rb'.
Proof.
  split; [lia|]. split; [reflexivity|].
  apply (run_never_faults 3 (fun i => Z.of_nat i + 7) fresh3); [lia|reflexivity].
Defined.

Lemma run_conserves_pointers_witness :
  wf 3 part3 /\
  Forall nonnull (window 3 part3) /\
  Forall nonnull (written [CallWrite 40; CallWrite 50; CallRead; CallWrite 60]) /\
  exists ps rb' tr,
    run 3 [CallWrite 40; CallWrite 50; CallRead; CallWrite 60] part3
    = Ok (ps, rb', tr) /\
    window 3 part3 ++ written [CallWrite 40; CallWrite 50; CallRead; CallWrite 60]
    ≡ₚ filter nonnull ps ++ released tr ++ window 3 rb'.
Proof.
  split; [exact wf_part3|]. split; [nonnull_list|]. split; [nonnull_list|].
  apply (run_conserves_pointers 3 _ part3); [exact wf_part3 | nonnull_list..].
Defined.

Lemma run_fifo_without_release_witness :
  wf 3 part3 /\
  Forall nonnull (window 3 part3) /\
  Forall nonnull (written [CallWrite 40; CallRead; CallRead]) /\
  run 3 [CallWrite 40; CallRead; CallRead] part3
  = Ok ([10; 20], {| count := 1; head := 1; elems := [20; 40; 10] |}, []) /\
  window 3 part3 ++ written [CallWrite 40; CallRead; CallRead]
  = filter nonnull [10; 20]
    ++ window 3 {| count := 1; head := 1; elems := [20; 40; 10] |}.
Proof.
  split; [exact wf_part3|]. split; [nonnull_list|]. split; [nonnull_list|].
  split; [reflexivity|].
  apply (run_fifo_without_release 3 [CallWrite 40; CallRead; CallRead] part3);
    [exact wf_part3 | nonnull_list | nonnull_list | reflexivity].
Defined.

Lemma full_writes_replace_front_witness :
  wf 3 full3 /\ count full3 = 3 /\
  exists old rb',
    load (elems full3) (head full3) = Some old /\
    run 3 (map CallWrite [40; 50]) full3
    = Ok ([], rb', map (fun p => EvDeallocate p 1) (old :: removelast [40; 50])) /\
    window 3 rb' = List.last [40; 50] nullptr :: tail (window 3 full3) /\
    head rb' = head full3 /\ count rb' = 3.
Proof.
  split; [exact wf_full3|]. split; [reflexivity|].
  apply (full_writes_replace_front 3 full3 40 [50]); [exact wf_full3 | reflexivity].
Defined.

Lemma reads_take_prefix_witness :
  wf 3 part3 /\
  exists rb',
    run 3 (repeat CallRead 3) part3
    = Ok (take 3 (window 3 part3) ++ repeat nullptr (3 - Z.to_nat (count part3)),
          rb', []) /\
    count rb' = count part3 - Z.min (Z.of_nat 3) (count part3) /\
    head rb' = (head part3 + Z.min (Z.of_nat 3) (count part3)) mod 3 /\
    elems rb' = elems part3.
Proof.
  split; [exact wf_part3|].
  apply (reads_take_prefix 3 part3 3). exact wf_part3.
Defined.

Lemma read_null_iff_empty_witness :
  wf 3 part3 /\ Forall nonnull (window 3 part3) /\
  exists p rb',
    readBuffer 3 part3 = Ok (p, rb', []) /\ (p = nullptr <-> count part3 = 0).
Proof.
  split; [exact wf_part3|]. split; [nonnull_list|].
  apply (read_null_iff_empty 3 part3); [exact wf_part3 | nonnull_list].
Defined.

Lemma dtor_releases_window_witness :
  wf 3 part3 /\ 3 <= INT_MAX + 1 /\
  RingBuffer_dtor 3 part3
  = Ok (map (fun p => EvDeallocate p 1) (window 3 part3) ++ [EvDeleteElems]).
Proof.
  split; [exact wf_part3|]. split; [unfold INT_MAX; lia|].
  apply (dtor_releases_window 3 part3); [exact wf_part3 | unfold INT_MAX; lia].
Defined.


